(** * NovaFi front end: the route table of [src/novafi/src/App.js]

    [App] is a zero-argument React component.  It returns a fragment with
    two children: [<NavBar />] and a [<Routes>] element holding five
    [<Route path=... element=... />] bindings.  Which page is shown is
    decided by react-router's [Routes], so the development has three layers:

    - [JS]: the string primitives the router relies on;
    - [Router]: the part of react-router (v6 API: [Routes], [Route] with an
      [element] prop) that [App] exercises: [createRoutesFromChildren],
      [flattenRoutes], [computeScore], [rankRouteBranches], [decodePath],
      [compilePath], [matchPath], [matchRoutes];
    - [App] itself, its rendering at a location, and React's reconciliation
      of the two child slots of the fragment when the location changes.

    A pathname is the location's path as [Routes] receives it, escapes
    and all; [matchRoutes] strips the basename (the default basename ["/"]
    strips nothing) and percent-decodes it before matching.  Strings are
    sequences of 8-bit characters, a character outside ASCII being the
    octets of its UTF-8 encoding. *)

From Stdlib Require Import String Ascii List Bool Arith Lia Permutation.
Import ListNotations.
Open Scope string_scope.

(** ** Components imported by App.js

    Each import binds one default export; the page modules and the
    navigation bar are opaque, so a component is identified by its import. *)

Inductive component : Type :=
| Home | Features | Pricing | Contact | Login | NavBar.

Definition component_eq_dec (a b : component) : {a = b} + {a <> b}.
Proof. decide equality. Defined.

Definition component_eqb (a b : component) : bool :=
  if component_eq_dec a b then true else false.

(** ** String primitives *)

Module JS.

Definition slash : ascii := "/"%char.

Definition isLower (c : ascii) : bool :=
  (("a" <=? c) && (c <=? "z"))%char.

Definition isUpper (c : ascii) : bool :=
  (("A" <=? c) && (c <=? "Z"))%char.

(** [String.prototype.toUpperCase] on one ASCII character; it is also the
    canonicalisation a regular expression with the [i] flag applies. *)
Definition toUpperCase (c : ascii) : ascii :=
  if isLower c then ascii_of_nat (nat_of_ascii c - 32) else c.

Definition toLowerCase (c : ascii) : ascii :=
  if isUpper c then ascii_of_nat (nat_of_ascii c + 32) else c.

Fixpoint lowerString (s : string) : string :=
  match s with
  | EmptyString => EmptyString
  | String c s' => String (toLowerCase c) (lowerString s')
  end.

(** [s.split("/")]: never empty, [ "".split("/") ] is [[""]]. *)
Fixpoint split (s : string) : list string :=
  match s with
  | EmptyString => [EmptyString]
  | String c s' =>
      match split s' with
      | seg :: rest =>
          if Ascii.eqb c slash then EmptyString :: seg :: rest
          else String c seg :: rest
      | [] => [String c EmptyString]
      end
  end.

(** [/^\/*$/.test(s)] *)
Fixpoint allSlashes (s : string) : bool :=
  match s with
  | EmptyString => true
  | String c s' => Ascii.eqb c slash && allSlashes s'
  end.

(** [s.replace(/\/*$/, "")] *)
Fixpoint dropTrailingSlashes (s : string) : string :=
  match s with
  | EmptyString => EmptyString
  | String c s' =>
      let r := dropTrailingSlashes s' in
      if Ascii.eqb c slash && String.eqb r EmptyString then EmptyString
      else String c r
  end.

(** [s.replace(/^\/*/, "")] *)
Fixpoint dropLeadingSlashes (s : string) : string :=
  match s with
  | EmptyString => EmptyString
  | String c s' => if Ascii.eqb c slash then dropLeadingSlashes s' else s
  end.

(** [s.replace(/\/\/+/g, "/")] *)
Fixpoint squeezeSlashes (s : string) : string :=
  match s with
  | EmptyString => EmptyString
  | String c s' =>
      let r := squeezeSlashes s' in
      match r with
      | String d _ => if Ascii.eqb c slash && Ascii.eqb d slash then r else String c r
      | EmptyString => String c r
      end
  end.

(** [!s.endsWith("/") && s !== ""] *)
Fixpoint endsNonSlash (s : string) : bool :=
  match s with
  | EmptyString => false
  | String c EmptyString => negb (Ascii.eqb c slash)
  | String _ s' => endsNonSlash s'
  end.

Definition percent : ascii := "%"%char.

(** [segments.join("/")] *)
Fixpoint join (segments : list string) : string :=
  match segments with
  | [] => EmptyString
  | seg :: rest =>
      match rest with
      | [] => seg
      | _ :: _ => seg ++ String slash (join rest)
      end
  end.

(** The value of a hexadecimal digit. *)
Definition hexValue (c : ascii) : option nat :=
  if (("0" <=? c) && (c <=? "9"))%char then Some (nat_of_ascii c - 48)
  else if (("a" <=? c) && (c <=? "f"))%char then Some (nat_of_ascii c - 87)
  else if (("A" <=? c) && (c <=? "F"))%char then Some (nat_of_ascii c - 55)
  else None.

(** A URI component read left to right: a character that stands for
    itself, or the octet of an escape [%XX]. *)
Inductive token : Type :=
| Lit (c : ascii)
| Esc (b : ascii).

(** [None]: a [%] that is not followed by two hexadecimal digits. *)
Fixpoint tokens (s : string) : option (list token) :=
  match s with
  | EmptyString => Some []
  | String c s1 =>
      if Ascii.eqb c percent then
        match s1 with
        | String h1 (String h2 s3) =>
            match hexValue h1, hexValue h2, tokens s3 with
            | Some a, Some b, Some ts => Some (Esc (ascii_of_nat (16 * a + b)) :: ts)
            | _, _, _ => None
            end
        | _ => None
        end
      else option_map (cons (Lit c)) (tokens s1)
  end.

(** The continuation octets a lead octet asks for, each with the range it
    must lie in (well-formed UTF-8); [None] for an octet that cannot start
    a sequence. *)
Definition leadOctet (n : nat) : option (list (nat * nat)) :=
  if (n <? 128)%nat then Some []
  else if ((194 <=? n) && (n <=? 223))%nat then Some [(128, 191)]
  else if (n =? 224)%nat then Some [(160, 191); (128, 191)]
  else if (n =? 237)%nat then Some [(128, 159); (128, 191)]
  else if ((225 <=? n) && (n <=? 239))%nat then Some [(128, 191); (128, 191)]
  else if (n =? 240)%nat then Some [(144, 191); (128, 191); (128, 191)]
  else if ((241 <=? n) && (n <=? 243))%nat then Some [(128, 191); (128, 191); (128, 191)]
  else if (n =? 244)%nat then Some [(128, 143); (128, 191); (128, 191)]
  else None.

Definition continues (range : nat * nat) (t : token) : bool :=
  match t with
  | Lit _ => false
  | Esc b => ((fst range <=? nat_of_ascii b) && (nat_of_ascii b <=? snd range))%nat
  end.

(** Whether the escapes spell well-formed UTF-8; [pending] are the
    continuation octets still owed to the sequence being read. *)
Fixpoint wellFormed (pending : list (nat * nat)) (ts : list token) : bool :=
  match ts with
  | [] => match pending with [] => true | _ :: _ => false end
  | t :: rest =>
      match pending with
      | range :: pending' => continues range t && wellFormed pending' rest
      | [] =>
          match t with
          | Lit _ => wellFormed [] rest
          | Esc b =>
              match leadOctet (nat_of_ascii b) with
              | Some owed => wellFormed owed rest
              | None => false
              end
          end
      end
  end.

Fixpoint emit (ts : list token) : string :=
  match ts with
  | [] => EmptyString
  | Lit c :: rest => String c (emit rest)
  | Esc b :: rest => String b (emit rest)
  end.

(** [decodeURIComponent]; [None] stands for the [URIError] it throws. *)
Definition decodeURIComponent (s : string) : option string :=
  match tokens s with
  | Some ts => if wellFormed [] ts then Some (emit ts) else None
  | None => None
  end.

(** [s.replace(/\//g, "%2F")] *)
Fixpoint replaceSlashes (s : string) : string :=
  match s with
  | EmptyString => EmptyString
  | String c s' =>
      if Ascii.eqb c slash then String percent (String "2" (String "F" (replaceSlashes s')))
      else String c (replaceSlashes s')
  end.

Fixpoint traverse {A B : Type} (f : A -> option B) (l : list A) : option (list B) :=
  match l with
  | [] => Some []
  | a :: rest =>
      match f a, traverse f rest with
      | Some b, Some bs => Some (b :: bs)
      | _, _ => None
      end
  end.

(** A token with its literal character lowered; an escape is an octet and
    has no case. *)
Definition foldToken (t : token) : token :=
  match t with
  | Lit c => Lit (toLowerCase c)
  | Esc b => Esc b
  end.

(** [a || b] on strings: the empty string is falsy. *)
Definition orElse (a b : string) : string :=
  if String.eqb a EmptyString then b else a.

End JS.

(** ** The router

    App.js imports [Routes] and [Route] from react-router-dom and passes
    neither [caseSensitive] nor a splat, so matching is the library's
    default: a route path is compiled to an expression anchored at both
    ends that tolerates trailing slashes and ignores letter case, and the
    first branch in rank order that matches is rendered.

    Only literal paths are modelled: no [:param] segment, no [*] splat, no
    character that [compilePath] would have to escape.  [literalPath]
    decides that, and [route_table_literal] below shows the five paths of
    App.js are of this kind. *)

Module Router.
Import JS.

(** The props App.js gives to a [<Route />] element. *)
Record RouteProps : Type := mkRouteProps {
  routePath : string;
  routeElement : component
}.

Record RouteObject : Type := mkRoute {
  path : string;
  element : component;
  caseSensitive : bool;
  index : bool
}.

(** A prop that is not written is [undefined]; the router reads
    [caseSensitive === true] and [index] as false then. *)
Definition createRoutesFromChildren (children : list RouteProps) : list RouteObject :=
  map (fun p => {| path := routePath p; element := routeElement p;
                   caseSensitive := false; index := false |}) children.

Definition literalChar (c : ascii) : bool :=
  isLower c || isUpper c || (("0" <=? c) && (c <=? "9"))%char
  || Ascii.eqb c slash || Ascii.eqb c "-" || Ascii.eqb c "_".

Fixpoint literalPath (s : string) : bool :=
  match s with
  | EmptyString => true
  | String c s' => literalChar c && literalPath s'
  end.

Definition emptySegmentValue : nat := 1.
Definition staticSegmentValue : nat := 10.
Definition indexRouteValue : nat := 2.

Definition computeScore (p : string) (isIndex : bool) : nat :=
  let segments := split p in
  let initialScore := List.length segments + (if isIndex then indexRouteValue else 0) in
  fold_left
    (fun score segment =>
       score + (if String.eqb segment EmptyString then emptySegmentValue
                else staticSegmentValue))
    segments initialScore.

(** [paths.join("/").replace(/\/\/+/g, "/")] for a parent path and a
    relative path. *)
Definition joinPaths (parentPath relativePath : string) : string :=
  squeezeSlashes (parentPath ++ String slash relativePath).

(** A branch of a table without nested routes has one [routesMeta]
    entry; its fields are kept flat. *)
Record RouteBranch : Type := mkBranch {
  branchPath : string;
  score : nat;
  relativePath : string;
  childrenIndex : nat;
  route : RouteObject
}.

Fixpoint flattenFrom (i : nat) (routes : list RouteObject) : list RouteBranch :=
  match routes with
  | [] => []
  | r :: rest =>
      let p := joinPaths EmptyString (path r) in
      {| branchPath := p; score := computeScore p (index r);
         relativePath := path r; childrenIndex := i; route := r |}
      :: flattenFrom (S i) rest
  end.

Definition flattenRoutes (routes : list RouteObject) : list RouteBranch :=
  flattenFrom 0 routes.

(** The comparator of [rankRouteBranches]: higher score first, siblings
    of equal score in the order they are written. *)
Definition ranksBefore (a b : RouteBranch) : bool :=
  if Nat.eqb (score a) (score b) then Nat.leb (childrenIndex a) (childrenIndex b)
  else Nat.ltb (score b) (score a).

Fixpoint insertBranch (b : RouteBranch) (l : list RouteBranch) : list RouteBranch :=
  match l with
  | [] => [b]
  | x :: l' => if ranksBefore b x then b :: l else x :: insertBranch b l'
  end.

Definition rankRouteBranches (branches : list RouteBranch) : list RouteBranch :=
  fold_right insertBranch [] branches.

(** [compilePath(path, caseSensitive, end = true)] for a literal path:
    the regular expression is [^] source [\/*$], with the [i] flag unless
    [caseSensitive]. *)
Record Matcher : Type := mkMatcher {
  source : string;
  ignoreCase : bool
}.

Definition compilePath (p : string) (cs : bool) : Matcher :=
  {| source := String slash (dropLeadingSlashes (dropTrailingSlashes p));
     ignoreCase := negb cs |}.

Definition charMatches (ic : bool) (c d : ascii) : bool :=
  if ic then Ascii.eqb (toUpperCase c) (toUpperCase d) else Ascii.eqb c d.

Fixpoint regexpTest (ic : bool) (src s : string) : bool :=
  match src with
  | EmptyString => allSlashes s
  | String c src' =>
      match s with
      | EmptyString => false
      | String d s' => charMatches ic c d && regexpTest ic src' s'
      end
  end.

Definition matchPath (p : string) (cs : bool) (pathname : string) : bool :=
  let m := compilePath p cs in
  regexpTest (ignoreCase m) (source m) pathname.

Definition matchRouteBranch (b : RouteBranch) (pathname : string) : bool :=
  matchPath (relativePath b) (caseSensitive (route b)) pathname.

Definition decodeSegment (v : string) : option string :=
  option_map replaceSlashes (decodeURIComponent v).

(** The body of the [try] in [decodePath]. *)
Definition decodePathTry (value : string) : option string :=
  option_map join (traverse decodeSegment (split value)).

(** [decodePath]: every segment decoded, a decoded slash written back as
    [%2F]; the value itself when some segment is malformed. *)
Definition decodePath (value : string) : string :=
  match decodePathTry value with
  | Some decoded => decoded
  | None => value
  end.

(** First branch, in rank order, that matches the decoded pathname. *)
Definition matchRoutes (routes : list RouteObject) (pathname : string) : option RouteObject :=
  let pathname := orElse pathname "/" in
  let decoded := decodePath pathname in
  option_map route
    (find (fun b => matchRouteBranch b decoded)
          (rankRouteBranches (flattenRoutes routes))).

(** [useRoutes]: the element of the match, or [null]. *)
Definition useRoutes (routes : list RouteObject) (pathname : string) : option component :=
  option_map element (matchRoutes routes (orElse pathname "/")).

End Router.

(** ** App.js *)

Import Router.

(** What a fragment child can be in App.js: a component element, or the
    [<Routes>] element with its [<Route />] children. *)
Inductive ReactElement : Type :=
| Component (c : component)
| Routes (children : list RouteProps).

Definition App : list ReactElement :=
  [ Component NavBar;
    Routes
      [ mkRouteProps "/" Home;
        mkRouteProps "/features" Features;
        mkRouteProps "/pricing" Pricing;
        mkRouteProps "/contact" Contact;
        mkRouteProps "/login" Login ] ].

(** The route table [Routes] builds from the children of an element. *)
Definition routesOf (e : ReactElement) : list RouteObject :=
  match e with
  | Component _ => []
  | Routes children => createRoutesFromChildren children
  end.

Definition routeTable : list RouteObject := flat_map routesOf App.

Definition definedPaths : list string := map path routeTable.

(** The body of [Routes]: on every render it builds the route table from
    its children and dispatches on that table.  The result is what it
    renders, with the table it built. *)
Definition renderRoutes (children : list RouteProps) (pathname : string)
  : option component * list RouteObject :=
  let routes := createRoutesFromChildren children in
  (useRoutes routes pathname, routes).

(** Rendering one child at a location: [Some c] when component [c] is
    shown in that slot, [None] for [null]. *)
Definition renderElement (pathname : string) (e : ReactElement) : option component :=
  match e with
  | Component c => Some c
  | Routes children => fst (renderRoutes children pathname)
  end.

(** The table a child built while it rendered at a location. *)
Definition tableBuilt (pathname : string) (e : ReactElement) : list RouteObject :=
  match e with
  | Component _ => []
  | Routes children => snd (renderRoutes children pathname)
  end.

(** The two slots of the fragment: the navigation shell and the content
    region. *)
Definition renderApp (pathname : string) : list (option component) :=
  map (renderElement pathname) App.

Definition shell (pathname : string) : option component :=
  nth 0 (renderApp pathname) None.

Definition content (pathname : string) : option component :=
  nth 1 (renderApp pathname) None.

(** The components on screen, in document order. *)
Fixpoint visible (slots : list (option component)) : list component :=
  match slots with
  | [] => []
  | Some c :: rest => c :: visible rest
  | None :: rest => visible rest
  end.

Definition isPage (c : component) : bool := negb (component_eqb c NavBar).

Definition pagesShown (pathname : string) : list component :=
  filter isPage (visible (renderApp pathname)).

(** The canonical form of a decoded pathname: trailing slashes dropped,
    ASCII letters lowered, and the empty result read as the root. *)
Definition canonicalDecoded (decoded : string) : string :=
  JS.orElse (JS.lowerString (JS.dropTrailingSlashes decoded)) "/".

(** The canonical form of a pathname: percent-decoded the way the router
    decodes it, then trailing slashes dropped and ASCII letters lowered.
    It is not part of the program; the dispatcher is compared with exact
    lookup on it. *)
Definition canonical (pathname : string) : string :=
  canonicalDecoded (decodePath (JS.orElse pathname "/")).

(** Whether the binding [r] matches the pathname the way [matchRoutes]
    tests it. *)
Definition bindingMatches (r : RouteObject) (pathname : string) : bool :=
  matchPath (path r) (caseSensitive r) (decodePath (JS.orElse pathname "/")).

Definition lookupExact (routes : list RouteObject) (p : string) : option RouteObject :=
  find (fun r => String.eqb (path r) p) routes.

(** ** Reconciliation of the fragment's children

    React keeps one fiber per child slot.  The children of the fragment
    carry no key, so on a re-render a slot is compared by position: a fiber
    is kept (updated in place) when the new element has the same component
    type, otherwise the old fiber is deleted and a new one is placed.  The
    second slot stands for [<Routes>] with what it renders: the fiber of
    [Routes] itself is always kept and is left out, and the page element it
    returns is reconciled by the same rule. *)

Record Fiber : Type := mkFiber {
  fiberType : component;
  fiberId : nat
}.

Inductive Effect : Type :=
| Placement (f : Fiber)
| Deletion (f : Fiber).

Definition reconcileSlot (current : option Fiber) (next : option component) (fresh : nat)
  : option Fiber * list Effect * nat :=
  match current, next with
  | None, None => (None, [], fresh)
  | None, Some c =>
      let f := mkFiber c fresh in (Some f, [Placement f], S fresh)
  | Some old, None => (None, [Deletion old], fresh)
  | Some old, Some c =>
      if component_eqb (fiberType old) c then (Some old, [], fresh)
      else let f := mkFiber c fresh in
           (Some f, [Deletion old; Placement f], S fresh)
  end.

Fixpoint deleteRemaining (current : list (option Fiber)) : list Effect :=
  match current with
  | [] => []
  | Some f :: rest => Deletion f :: deleteRemaining rest
  | None :: rest => deleteRemaining rest
  end.

Fixpoint reconcileChildren (current : list (option Fiber))
    (next : list (option component)) (fresh : nat)
  : list (option Fiber) * list Effect * nat :=
  match next with
  | [] => ([], deleteRemaining current, fresh)
  | n :: next' =>
      let old := hd None current in
      let '(slot, effs, fresh1) := reconcileSlot old n fresh in
      let '(slots, effs', fresh2) := reconcileChildren (tl current) next' fresh1 in
      (slot :: slots, (effs ++ effs')%list, fresh2)
  end.

(** The mounted application: the location it was last rendered at, the
    fibers of the two slots, the next unused fiber id, and the route table
    [Routes] built and dispatched on during that render. *)
Record Root : Type := mkRoot {
  location : string;
  fibers : list (option Fiber);
  nextId : nat;
  consulted : list RouteObject
}.

Definition commit (current : list (option Fiber)) (fresh : nat) (pathname : string)
  : Root * list Effect :=
  let '(slots, effs, fresh') := reconcileChildren current (renderApp pathname) fresh in
  ({| location := pathname; fibers := slots; nextId := fresh';
      consulted := flat_map (tableBuilt pathname) App |}, effs).

(** First render at [pathname]. *)
Definition mount (pathname : string) : Root * list Effect :=
  commit [] 0 pathname.

(** A URL change on a mounted application. *)
Definition navigate (r : Root) (pathname : string) : Root * list Effect :=
  commit (fibers r) (nextId r) pathname.

(** Load at [start], then follow [history]. *)
Definition run (start : string) (history : list string) : Root :=
  fold_left (fun r p => fst (navigate r p)) history (fst (mount start)).

Inductive reachable : Root -> Prop :=
| reach_mount : forall p, reachable (fst (mount p))
| reach_navigate : forall r p, reachable r -> reachable (fst (navigate r p)).

Definition shellFiber (r : Root) : option Fiber := nth 0 (fibers r) None.
Definition contentFiber (r : Root) : option Fiber := nth 1 (fibers r) None.

(** What is on screen: the component type of each slot. *)
Definition screen (r : Root) : list (option component) :=
  map (option_map fiberType) (fibers r).

Definition touches (c : component) (e : Effect) : bool :=
  match e with
  | Placement f | Deletion f => component_eqb (fiberType f) c
  end.



(** The [<Route />] children App.js writes inside [<Routes>]. *)
Definition routeChildren : list RouteProps :=
  flat_map (fun e => match e with
                     | Component _ => []
                     | Routes children => children
                     end) App.

(** The fibers that are mounted, slot by slot. *)
Fixpoint mountedFibers (slots : list (option Fiber)) : list Fiber :=
  match slots with
  | [] => []
  | Some f :: rest => f :: mountedFibers rest
  | None :: rest => mountedFibers rest
  end.

(** * Properties *)

(** ** Worked pathnames *)

Example render_root : renderApp "/" = [Some NavBar; Some Home].
Proof. reflexivity. Qed.

Example render_empty_pathname : renderApp "" = [Some NavBar; Some Home].
Proof. reflexivity. Qed.

Example render_unknown : renderApp "/unknown" = [Some NavBar; None].
Proof. reflexivity. Qed.

Example render_nested : renderApp "/features/x" = [Some NavBar; None].
Proof. reflexivity. Qed.

Example render_folded : renderApp "/FEATURES//" = [Some NavBar; Some Features].
Proof. reflexivity. Qed.

Example render_escaped : renderApp "/%66eatures" = [Some NavBar; Some Features].
Proof. reflexivity. Qed.

Example render_malformed_escape : renderApp "/features%" = [Some NavBar; None].
Proof. reflexivity. Qed.

Example render_escaped_slash : renderApp "/features%2F" = [Some NavBar; None].
Proof. reflexivity. Qed.

Example decode_samples :
  decodePath "/%66eatures" = "/features"
  /\ decodePath "/a%2fb/c" = "/a%2Fb/c"
  /\ decodePath "/%66eatures%FF" = "/%66eatures%FF"
  /\ decodePath "/%C3/%A9" = "/%C3/%A9"
  /\ decodePath "/%ED%A0%80" = "/%ED%A0%80".
Proof. repeat split. Qed.

Example rank_order :
  map (fun b => (branchPath b, score b)) (rankRouteBranches (flattenRoutes routeTable))
  = [("/features", 13); ("/pricing", 13); ("/contact", 13); ("/login", 13); ("/", 4)].
Proof. reflexivity. Qed.

Example canonical_forms :
  canonical "/Features//" = "/features" /\ canonical "//" = "/" /\ canonical "" = "/"
  /\ canonical "/%4C%6fgin/" = "/login".
Proof. repeat split. Qed.

(** ** Characters and strings *)

Section CaseFolding.
Import JS.

Lemma lower_of_upper (c : ascii) : toLowerCase (toUpperCase c) = toLowerCase c.
Proof. destruct c as [[] [] [] [] [] [] [] []]; reflexivity. Qed.

Lemma upper_of_lower (c : ascii) : toUpperCase (toLowerCase c) = toUpperCase c.
Proof. destruct c as [[] [] [] [] [] [] [] []]; reflexivity. Qed.

Lemma same_fold (c d : ascii) :
  toUpperCase c = toUpperCase d <-> toLowerCase c = toLowerCase d.
Proof.
  split; intros E.
  - rewrite <- (lower_of_upper c), <- (lower_of_upper d). now rewrite E.
  - rewrite <- (upper_of_lower c), <- (upper_of_lower d). now rewrite E.
Qed.

Lemma lower_slash (c : ascii) : toLowerCase c = slash -> c = slash.
Proof. destruct c as [[] [] [] [] [] [] [] []]; cbv; congruence. Qed.

Lemma charMatches_fold (c d : ascii) :
  charMatches true c d = true <-> toLowerCase d = toLowerCase c.
Proof.
  unfold charMatches. rewrite Ascii.eqb_eq, same_fold. split; congruence.
Qed.

Lemma allSlashes_drop (s : string) :
  allSlashes s = true <-> dropTrailingSlashes s = EmptyString.
Proof.
  induction s as [|c s IH]; simpl.
  - tauto.
  - destruct (Ascii.eqb c slash); simpl.
    + rewrite IH. destruct (dropTrailingSlashes s); simpl; split; congruence.
    + split; discriminate.
Qed.

Lemma drop_cons (c : ascii) (s : string) :
  dropTrailingSlashes (String c s) = EmptyString
  \/ dropTrailingSlashes (String c s) = String c (dropTrailingSlashes s)
     /\ (c = slash -> dropTrailingSlashes s <> EmptyString).
Proof.
  simpl. destruct (Ascii.eqb_spec c slash) as [E|N]; simpl.
  - destruct (dropTrailingSlashes s); simpl; [now left|right].
    split; [reflexivity|discriminate].
  - right. split; [reflexivity|tauto].
Qed.

Lemma lower_empty (s : string) : lowerString s = EmptyString -> s = EmptyString.
Proof. destruct s; simpl; congruence. Qed.

(** The compiled expression of a lower-case literal path accepts exactly
    the pathnames whose canonical form is that path. *)
Lemma regexpTest_lower (src : string) :
  lowerString src = src -> endsNonSlash src = true ->
  forall s, regexpTest true src s = true
            <-> lowerString (dropTrailingSlashes s) = src.
Proof.
  induction src as [|c src IH]; intros L E s.
  - discriminate.
  - simpl in L. injection L as Lc Ls.
    destruct s as [|d s].
    + simpl. split; discriminate.
    + cbn [regexpTest]. rewrite andb_true_iff, charMatches_fold, Lc.
      destruct src as [|c' src'].
      * cbn [regexpTest]. rewrite allSlashes_drop.
        simpl in E. apply negb_true_iff in E.
        destruct (Ascii.eqb_spec c slash) as [|Nc]; [discriminate|].
        destruct (drop_cons d s) as [Z|[Z G]]; rewrite Z; simpl.
        -- split; [|discriminate]. intros [Hd Hs].
           simpl in Z. rewrite Hs in Z. simpl in Z.
           destruct (Ascii.eqb_spec d slash) as [->|]; [|discriminate].
           exfalso. apply Nc. apply lower_slash. rewrite <- Lc, <- Hd. reflexivity.
        -- split.
           ++ intros [Hd Hs]. rewrite Hd, Hs. reflexivity.
           ++ intros H. injection H as Hd Hs. split; [assumption|].
              now apply lower_empty.
      * assert (E' : endsNonSlash (String c' src') = true) by exact E.
        rewrite (IH Ls E' s).
        destruct (drop_cons d s) as [Z|[Z G]]; rewrite Z; simpl.
        -- split; [|discriminate]. intros [Hd Hs].
           simpl in Z.
           destruct (Ascii.eqb d slash); simpl in Z; [|discriminate].
           destruct (dropTrailingSlashes s); simpl in *; discriminate.
        -- split.
           ++ intros [Hd Hs]. rewrite Hd. simpl in Hs. rewrite Hs. reflexivity.
           ++ intros H. injection H as Hd Hs. split; [assumption|].
              simpl. assumption.
Qed.

(** The root's expression [^\/\/*$] accepts the non-empty runs of
    slashes. *)
Lemma regexpTest_root (s : string) :
  regexpTest true "/" s = true
  <-> s <> EmptyString /\ dropTrailingSlashes s = EmptyString.
Proof.
  destruct s as [|d s].
  - simpl. split; [discriminate|]. intros [H _]. now elim H.
  - cbn [regexpTest]. rewrite andb_true_iff, allSlashes_drop.
    unfold charMatches. rewrite Ascii.eqb_eq.
    split.
    + intros [Hd Hs]. split; [discriminate|].
      assert (d = slash) as ->.
      { apply lower_slash. change slash with (toLowerCase slash).
        apply same_fold. symmetry. exact Hd. }
      simpl. rewrite Hs. reflexivity.
    + intros [_ H]. simpl in H.
      destruct (Ascii.eqb_spec d slash) as [->|]; simpl in H; [|discriminate].
      split; [reflexivity|].
      destruct (dropTrailingSlashes s); [reflexivity|discriminate].
Qed.

End CaseFolding.

(** ** Percent-decoding *)

Section Decoding.
Import JS.

Lemma split_nonnil (s : string) : split s <> [].
Proof.
  destruct s as [|c s]; simpl; [discriminate|].
  destruct (split s); [discriminate|].
  destruct (Ascii.eqb c slash); discriminate.
Qed.

Lemma split_cons (c : ascii) (s : string) :
  split (String c s) =
  if Ascii.eqb c slash then EmptyString :: split s
  else String c (hd EmptyString (split s)) :: tl (split s).
Proof.
  simpl. pose proof (split_nonnil s) as N.
  destruct (split s); [contradiction|reflexivity].
Qed.

Lemma join_cons (seg : string) (rest : list string) :
  rest <> [] -> join (seg :: rest) = seg ++ String slash (join rest).
Proof. destruct rest; [contradiction|reflexivity]. Qed.

Lemma join_split (s : string) : join (split s) = s.
Proof.
  induction s as [|c s IH]; [reflexivity|].
  rewrite split_cons. pose proof (split_nonnil s) as N.
  destruct (split s) as [|seg rest]; [contradiction|].
  destruct (Ascii.eqb_spec c slash) as [->|_].
  - rewrite join_cons by discriminate. now rewrite IH.
  - cbn [hd tl]. destruct rest as [|x rest].
    + simpl in *. now rewrite IH.
    + rewrite join_cons by discriminate.
      rewrite join_cons in IH by discriminate.
      cbn [append]. now rewrite IH.
Qed.

Lemma split_app_slash (a b : string) :
  split (a ++ String slash b) = (split a ++ split b)%list.
Proof.
  induction a as [|c a IH].
  - cbn [append]. rewrite split_cons. reflexivity.
  - cbn [append]. rewrite !split_cons, IH.
    pose proof (split_nonnil a) as N.
    destruct (split a) as [|seg rest]; [contradiction|].
    destruct (Ascii.eqb c slash); reflexivity.
Qed.

Lemma append_assoc (a b c : string) : (a ++ b) ++ c = a ++ (b ++ c).
Proof. induction a as [|x a IH]; simpl; [reflexivity|now rewrite IH]. Qed.

Lemma join_app (l m : list string) :
  l <> [] -> m <> [] ->
  join (l ++ m) = join l ++ String slash (join m).
Proof.
  intros L M. induction l as [|x l IH]; [contradiction|].
  destruct l as [|y l].
  - cbn [app]. now rewrite join_cons.
  - change ((x :: y :: l) ++ m)%list with (x :: ((y :: l) ++ m))%list.
    rewrite join_cons by discriminate.
    rewrite IH by discriminate.
    rewrite (join_cons x (y :: l)) by discriminate.
    rewrite append_assoc. reflexivity.
Qed.

Lemma traverse_app {A B : Type} (f : A -> option B) (l m : list A) :
  traverse f (l ++ m) =
  match traverse f l, traverse f m with
  | Some x, Some y => Some (x ++ y)%list
  | _, _ => None
  end.
Proof.
  induction l as [|a l IH]; simpl.
  - destruct (traverse f m); reflexivity.
  - rewrite IH. destruct (f a), (traverse f l), (traverse f m); reflexivity.
Qed.

Lemma traverse_nonnil {A B : Type} (f : A -> option B) (l : list A) (r : list B) :
  traverse f l = Some r -> l <> [] -> r <> [].
Proof.
  destruct l as [|a l]; [contradiction|]. simpl.
  destruct (f a), (traverse f l); intros H _; try discriminate.
  injection H as <-. discriminate.
Qed.

(** Decoding goes slash by slash: the two sides of a slash are decoded
    apart, and one malformed side spoils the whole. *)
Lemma decodePathTry_slash (a b : string) :
  decodePathTry (a ++ String slash b) =
  match decodePathTry a, decodePathTry b with
  | Some x, Some y => Some (x ++ String slash y)
  | _, _ => None
  end.
Proof.
  unfold decodePathTry. rewrite split_app_slash, traverse_app.
  destruct (traverse decodeSegment (split a)) as [x|] eqn:X; [|reflexivity].
  destruct (traverse decodeSegment (split b)) as [y|] eqn:Y; [|reflexivity].
  simpl. f_equal. apply join_app.
  - exact (traverse_nonnil _ _ _ X (split_nonnil a)).
  - exact (traverse_nonnil _ _ _ Y (split_nonnil b)).
Qed.

Lemma decodePathTry_slashes (t : string) :
  allSlashes t = true -> decodePathTry t = Some t.
Proof.
  induction t as [|c t IH]; [reflexivity|].
  simpl. intros H. apply andb_true_iff in H. destruct H as [C T].
  apply Ascii.eqb_eq in C. subst c.
  change (String slash t) with (EmptyString ++ String slash t).
  rewrite decodePathTry_slash, (IH T). reflexivity.
Qed.

Lemma decodePath_app_slashes (p t : string) :
  allSlashes t = true -> decodePath (p ++ t) = decodePath p ++ t.
Proof.
  intros T. destruct t as [|c t].
  - clear T. assert (E : forall s, s ++ EmptyString = s).
    { induction s as [|x s IH]; simpl; [reflexivity|now rewrite IH]. }
    now rewrite !E.
  - simpl in T. apply andb_true_iff in T. destruct T as [C T].
    apply Ascii.eqb_eq in C. subst c.
    unfold decodePath. rewrite decodePathTry_slash, (decodePathTry_slashes t T).
    destruct (decodePathTry p); reflexivity.
Qed.

(** *** Emptiness *)

Lemma tokens_nil (s : string) : tokens s = Some [] -> s = EmptyString.
Proof.
  destruct s as [|c s]; [reflexivity|]. simpl.
  destruct (Ascii.eqb c percent).
  - destruct s as [|h1 [|h2 s]]; try discriminate.
    destruct (hexValue h1), (hexValue h2), (tokens s); discriminate.
  - destruct (tokens s); discriminate.
Qed.

Lemma decodeSegment_empty (v d : string) :
  decodeSegment v = Some d -> (d = EmptyString <-> v = EmptyString).
Proof.
  unfold decodeSegment, decodeURIComponent.
  destruct (tokens v) as [ts|] eqn:T; [|discriminate].
  destruct (wellFormed [] ts); [|discriminate].
  simpl. intros H. injection H as <-. split.
  - intros E. apply tokens_nil. rewrite T. f_equal.
    destruct ts as [|[c|b] ts]; [reflexivity| |]; simpl in E.
    + destruct (Ascii.eqb c slash); discriminate.
    + destruct (Ascii.eqb b slash); discriminate.
  - intros ->. simpl in T. injection T as <-. reflexivity.
Qed.

Lemma allSlashes_replaced (x : string) :
  allSlashes (replaceSlashes x) = String.eqb x EmptyString.
Proof.
  destruct x as [|c x]; [reflexivity|]. simpl.
  destruct (Ascii.eqb c slash) eqn:C; simpl; [reflexivity|].
  now rewrite C.
Qed.

Lemma decodeSegment_slashes (v d : string) :
  decodeSegment v = Some d -> allSlashes d = String.eqb v EmptyString.
Proof.
  intros D. pose proof (decodeSegment_empty v d D) as E.
  unfold decodeSegment in D.
  destruct (decodeURIComponent v) as [e|]; [|discriminate].
  simpl in D. injection D as <-. rewrite allSlashes_replaced.
  destruct (String.eqb_spec v EmptyString) as [V|V].
  - apply E in V. destruct e; [reflexivity|].
    simpl in V. destruct (Ascii.eqb a slash); discriminate.
  - destruct (String.eqb_spec e EmptyString) as [->|]; [|reflexivity].
    exfalso. apply V, E. reflexivity.
Qed.

Lemma traverse_slashes (l r : list string) :
  traverse decodeSegment l = Some r ->
  map allSlashes r = map (fun v => String.eqb v EmptyString) l.
Proof.
  revert r. induction l as [|v l IH]; intros r; simpl.
  - intros H. injection H as <-. reflexivity.
  - destruct (decodeSegment v) as [d|] eqn:D; [|discriminate].
    destruct (traverse decodeSegment l) as [ds|]; [|discriminate].
    intros H. injection H as <-. simpl.
    now rewrite (IH ds eq_refl), (decodeSegment_slashes v d D).
Qed.

Lemma split_slashes (s : string) :
  map allSlashes (split s) = map (fun v => String.eqb v EmptyString) (split s).
Proof.
  induction s as [|c s IH]; [reflexivity|].
  rewrite split_cons. pose proof (split_nonnil s) as N.
  destruct (split s) as [|seg rest]; [contradiction|].
  destruct (Ascii.eqb c slash) eqn:C.
  - simpl. simpl in IH. now rewrite IH.
  - cbn [hd tl map]. simpl in IH. injection IH as _ IH.
    rewrite IH. simpl. now rewrite C.
Qed.

Lemma allSlashes_app (a b : string) :
  allSlashes (a ++ b) = allSlashes a && allSlashes b.
Proof.
  induction a as [|c a IH]; simpl; [reflexivity|].
  now rewrite IH, andb_assoc.
Qed.

Lemma allSlashes_join (l : list string) :
  allSlashes (join l) = forallb (fun b => b) (map allSlashes l).
Proof.
  induction l as [|x l IH]; [reflexivity|].
  destruct l as [|y l].
  - simpl. now rewrite andb_true_r.
  - rewrite join_cons by discriminate.
    rewrite allSlashes_app. cbn [allSlashes]. rewrite Ascii.eqb_refl, IH.
    reflexivity.
Qed.

(** Decoding neither makes nor unmakes a run of slashes. *)
Lemma decodePathTry_allSlashes (t d : string) :
  decodePathTry t = Some d -> allSlashes d = allSlashes t.
Proof.
  unfold decodePathTry.
  destruct (traverse decodeSegment (split t)) as [r|] eqn:T; [|discriminate].
  simpl. intros H. injection H as <-.
  rewrite <- (join_split t) at 1. rewrite !allSlashes_join.
  now rewrite (traverse_slashes _ _ T), split_slashes.
Qed.

Lemma decodePath_allSlashes (t : string) :
  allSlashes (decodePath t) = allSlashes t.
Proof.
  unfold decodePath. destruct (decodePathTry t) as [d|] eqn:D; [|reflexivity].
  now apply decodePathTry_allSlashes.
Qed.

Lemma decodePath_nonempty (s : string) :
  s <> EmptyString -> decodePath s <> EmptyString.
Proof.
  intros N E. unfold decodePath in E.
  destruct (decodePathTry s) as [d|] eqn:D; [|contradiction].
  subst d. unfold decodePathTry in D.
  destruct (traverse decodeSegment (split s)) as [r|] eqn:T; [|discriminate].
  simpl in D. injection D as J.
  pose proof (join_split s) as S.
  destruct (split s) as [|v [|w l]].
  - simpl in S. congruence.
  - simpl in T. destruct (decodeSegment v) as [d|] eqn:Dv; [|discriminate].
    injection T as <-. simpl in J, S. subst d v.
    apply N. now apply (decodeSegment_empty s EmptyString Dv).
  - simpl in T. destruct (decodeSegment v), (decodeSegment w),
      (traverse decodeSegment l); try discriminate.
    injection T as <-. rewrite join_cons in J by discriminate.
    destruct s0; discriminate.
Qed.

End Decoding.

Section DecodingAndCase.
Import JS.

Lemma lower_slash_eqb (c : ascii) :
  Ascii.eqb (toLowerCase c) slash = Ascii.eqb c slash.
Proof. destruct c as [[] [] [] [] [] [] [] []]; reflexivity. Qed.

Lemma lower_app (a b : string) :
  lowerString (a ++ b) = lowerString a ++ lowerString b.
Proof. induction a as [|c a IH]; simpl; [reflexivity|now rewrite IH]. Qed.

Lemma lower_percent_eqb (c : ascii) :
  Ascii.eqb (toLowerCase c) percent = Ascii.eqb c percent.
Proof. destruct c as [[] [] [] [] [] [] [] []]; reflexivity. Qed.

Lemma lower_idem (c : ascii) : toLowerCase (toLowerCase c) = toLowerCase c.
Proof. destruct c as [[] [] [] [] [] [] [] []]; reflexivity. Qed.

Lemma lowerString_idem (s : string) : lowerString (lowerString s) = lowerString s.
Proof. induction s as [|c s IH]; simpl; [reflexivity|now rewrite lower_idem, IH]. Qed.

(** A hexadecimal digit has the same value in either case. *)
Lemma hexValue_lower (c : ascii) : hexValue (toLowerCase c) = hexValue c.
Proof. destruct c as [[] [] [] [] [] [] [] []]; reflexivity. Qed.

Lemma tokens_lower (s : string) :
  tokens (lowerString s) = option_map (map foldToken) (tokens s).
Proof.
  assert (G : forall n s, String.length s <= n ->
                tokens (lowerString s) = option_map (map foldToken) (tokens s)).
  { induction n as [|n IH]; intros [|c s1] L; try reflexivity.
    - simpl in L. lia.
    - cbn [lowerString tokens]. rewrite lower_percent_eqb.
      destruct (Ascii.eqb c percent).
      + destruct s1 as [|h1 [|h2 s3]]; try reflexivity.
        cbn [lowerString]. rewrite !hexValue_lower.
        rewrite (IH s3) by (simpl in L; lia).
        destruct (hexValue h1), (hexValue h2), (tokens s3); reflexivity.
      + rewrite (IH s1) by (simpl in L; lia).
        destruct (tokens s1); reflexivity. }
  exact (G (String.length s) s (le_n _)).
Qed.

Lemma wellFormed_fold (ts : list token) :
  forall pending, wellFormed pending (map foldToken ts) = wellFormed pending ts.
Proof.
  induction ts as [|t ts IH]; intros pending; [reflexivity|].
  cbn [map wellFormed]. destruct pending as [|range pending].
  - destruct t as [c|b]; cbn [foldToken]; [apply IH|].
    destruct (leadOctet (nat_of_ascii b)); [apply IH|reflexivity].
  - rewrite IH. destruct t; reflexivity.
Qed.

Lemma emit_fold (ts : list token) :
  lowerString (replaceSlashes (emit (map foldToken ts)))
  = lowerString (replaceSlashes (emit ts)).
Proof.
  induction ts as [|[c|b] ts IH]; [reflexivity| |].
  - cbn [map foldToken emit replaceSlashes]. rewrite lower_slash_eqb.
    destruct (Ascii.eqb c slash); cbn [lowerString]; now rewrite ?lower_idem, IH.
  - cbn [map foldToken emit replaceSlashes].
    destruct (Ascii.eqb b slash); cbn [lowerString]; now rewrite IH.
Qed.

Lemma decodeSegment_lower (v : string) :
  option_map lowerString (decodeSegment (lowerString v))
  = option_map lowerString (decodeSegment v).
Proof.
  unfold decodeSegment, decodeURIComponent. rewrite tokens_lower.
  destruct (tokens v) as [ts|]; [|reflexivity].
  cbn [option_map]. rewrite wellFormed_fold.
  destruct (wellFormed [] ts); [|reflexivity].
  cbn [option_map]. now rewrite emit_fold.
Qed.

Lemma split_lower (s : string) : split (lowerString s) = map lowerString (split s).
Proof.
  induction s as [|c s IH]; [reflexivity|].
  cbn [lowerString]. rewrite !split_cons, IH, lower_slash_eqb.
  pose proof (split_nonnil s) as N.
  destruct (split s) as [|seg rest]; [contradiction|].
  destruct (Ascii.eqb c slash); reflexivity.
Qed.

Lemma lower_join (l : list string) : lowerString (join l) = join (map lowerString l).
Proof.
  induction l as [|x l IH]; [reflexivity|].
  destruct l as [|y l]; [reflexivity|].
  rewrite (join_cons x) by discriminate.
  cbn [map]. rewrite (join_cons (lowerString x)) by discriminate.
  rewrite lower_app. cbn [lowerString]. cbn [map] in IH. now rewrite IH.
Qed.

Lemma traverse_lower (l : list string) :
  option_map (map lowerString) (traverse decodeSegment (map lowerString l))
  = option_map (map lowerString) (traverse decodeSegment l).
Proof.
  induction l as [|v l IH]; [reflexivity|].
  cbn [map traverse]. pose proof (decodeSegment_lower v) as D.
  destruct (decodeSegment (lowerString v)) as [d1|],
           (decodeSegment v) as [d2|]; try discriminate; [|reflexivity].
  simpl in D. injection D as D.
  destruct (traverse decodeSegment (map lowerString l)) as [r1|],
           (traverse decodeSegment l) as [r2|]; try discriminate; [|reflexivity].
  simpl in IH. injection IH as IH. simpl. now rewrite D, IH.
Qed.

Lemma decodePathTry_lower (s : string) :
  option_map lowerString (decodePathTry (lowerString s))
  = option_map lowerString (decodePathTry s).
Proof.
  unfold decodePathTry. rewrite split_lower.
  pose proof (traverse_lower (split s)) as T.
  destruct (traverse decodeSegment (map lowerString (split s))) as [r1|],
           (traverse decodeSegment (split s)) as [r2|]; try discriminate;
    [|reflexivity].
  simpl in T. injection T as T. simpl. now rewrite !lower_join, T.
Qed.

(** Decoding respects letter case: lowering before decoding and lowering
    after it end in the same string. *)
Lemma decodePath_lower (s : string) :
  lowerString (decodePath (lowerString s)) = lowerString (decodePath s).
Proof.
  unfold decodePath. pose proof (decodePathTry_lower s) as T.
  destruct (decodePathTry (lowerString s)) as [d1|],
           (decodePathTry s) as [d2|]; try discriminate.
  - simpl in T. now injection T.
  - apply lowerString_idem.
Qed.

End DecodingAndCase.

(** ** The route table and its matcher *)

Lemma route_table :
  routeTable =
  [ mkRoute "/" Home false false;
    mkRoute "/features" Features false false;
    mkRoute "/pricing" Pricing false false;
    mkRoute "/contact" Contact false false;
    mkRoute "/login" Login false false ].
Proof. reflexivity. Qed.

Lemma route_table_literal :
  forallb (fun r => literalPath (path r)) routeTable = true.
Proof. reflexivity. Qed.

(** Rank order: the four one-segment paths (score 13) in source order,
    then the root (score 4). *)
Lemma ranked_branches :
  map route (rankRouteBranches (flattenRoutes routeTable)) =
  [ mkRoute "/features" Features false false;
    mkRoute "/pricing" Pricing false false;
    mkRoute "/contact" Contact false false;
    mkRoute "/login" Login false false;
    mkRoute "/" Home false false ].
Proof. reflexivity. Qed.

Lemma orElse_idem (s d : string) :
  d <> EmptyString -> JS.orElse (JS.orElse s d) d = JS.orElse s d.
Proof.
  intros N. unfold JS.orElse.
  destruct (String.eqb_spec s EmptyString) as [->|Hs].
  - destruct (String.eqb_spec d EmptyString); [contradiction|reflexivity].
  - destruct (String.eqb_spec s EmptyString); [contradiction|reflexivity].
Qed.

Lemma drop_not_slash (s : string) : JS.dropTrailingSlashes s <> "/".
Proof.
  destruct s as [|c s]; [discriminate|].
  destruct (drop_cons c s) as [Z|[Z G]]; rewrite Z; [discriminate|].
  intros H. injection H as Hc Hs. apply G; [exact Hc|exact Hs].
Qed.

Lemma canonicalDecoded_cases (p : string) :
  (JS.dropTrailingSlashes p = EmptyString /\ canonicalDecoded p = "/")
  \/ (canonicalDecoded p = JS.lowerString (JS.dropTrailingSlashes p)
      /\ canonicalDecoded p <> "/" /\ p <> EmptyString).
Proof.
  unfold canonicalDecoded.
  destruct (JS.dropTrailingSlashes p) as [|c t] eqn:D.
  - left. split; reflexivity.
  - right. simpl. unfold JS.orElse. simpl. repeat split.
    + intros H. injection H as Hc Ht.
      apply lower_slash in Hc. apply lower_empty in Ht. subst.
      exact (drop_not_slash p D).
    + intros ->. discriminate D.
Qed.

(** The expression of a binding accepts exactly the decoded pathnames
    whose canonical form is its path. *)
Lemma matchPath_canonicalDecoded (r : RouteObject) (p : string) :
  In r routeTable ->
  (matchPath (path r) (caseSensitive r) (JS.orElse p "/") = true
   <-> canonicalDecoded p = path r).
Proof.
  intros Hr. rewrite route_table in Hr. simpl in Hr.
  destruct Hr as [<-|Hr].
  { (* the root *)
    unfold matchPath. cbn [path caseSensitive compilePath ignoreCase source negb
      JS.dropTrailingSlashes JS.dropLeadingSlashes Ascii.eqb String.eqb
      JS.slash Bool.eqb andb].
    rewrite regexpTest_root.
    destruct p as [|d s].
    - cbv. split; [reflexivity|]. intros _. split; [discriminate|reflexivity].
    - change (JS.orElse (String d s) "/") with (String d s).
      destruct (canonicalDecoded_cases (String d s)) as [[D C]|[C [N _]]].
      + split; [intros _; exact C|]. intros _. split; [discriminate|exact D].
      + split; [|intros H; contradiction].
        intros [_ D]. exfalso. apply N. unfold canonicalDecoded. rewrite D. reflexivity. }
  assert (G : forall q, JS.lowerString q = q -> JS.endsNonSlash q = true ->
               q <> "/" ->
               (regexpTest true q (JS.orElse p "/") = true <-> canonicalDecoded p = q)).
  { intros q Lq Eq Nq. rewrite (regexpTest_lower q Lq Eq).
    destruct p as [|d s].
    - cbv [JS.orElse String.eqb]. cbn. split; intros H.
      + subst q. discriminate Eq.
      + symmetry in H. contradiction.
    - change (JS.orElse (String d s) "/") with (String d s).
      destruct (canonicalDecoded_cases (String d s)) as [[D C]|[C _]].
      + rewrite D, C. cbn. split; intros H.
        * subst q. discriminate Eq.
        * symmetry in H. contradiction.
      + rewrite C. tauto. }
  repeat (destruct Hr as [<-|Hr]; [apply G; [reflexivity|reflexivity|discriminate]|]).
  contradiction.
Qed.

(** A binding of the table matches exactly the pathnames whose canonical
    form is its path. *)
Lemma bindingMatches_canonical (r : RouteObject) (p : string) :
  In r routeTable -> (bindingMatches r p = true <-> canonical p = path r).
Proof.
  intros Hr. unfold bindingMatches, canonical.
  assert (N : decodePath (JS.orElse p "/") <> EmptyString).
  { apply decodePath_nonempty. destruct p; discriminate. }
  rewrite <- (matchPath_canonicalDecoded r _ Hr).
  destruct (decodePath (JS.orElse p "/")); [contradiction|reflexivity].
Qed.

Lemma matchRoutes_first (p : string) :
  matchRoutes routeTable p =
  find (fun r => bindingMatches r p)
       (map route (rankRouteBranches (flattenRoutes routeTable))).
Proof.
  unfold matchRoutes.
  let ranked := eval cbv in (rankRouteBranches (flattenRoutes routeTable)) in
  change (rankRouteBranches (flattenRoutes routeTable)) with ranked.
  cbn [find map route option_map].
  unfold matchRouteBranch, bindingMatches. cbn [relativePath route path caseSensitive].
  repeat match goal with
         | |- context [if ?c then _ else _] => destruct c
         end; reflexivity.
Qed.

Ltac by_canonical E :=
  apply bindingMatches_canonical in E;
  [cbn [path] in E; unfold lookupExact; rewrite E; reflexivity
  | rewrite route_table; simpl; tauto].

Ltac no_binding E :=
  apply not_true_iff_false in E; apply E;
  apply bindingMatches_canonical;
  [rewrite route_table; simpl; tauto | cbn [path]; congruence].

(** Dispatch is exact lookup of the canonical pathname in the table. *)
Lemma matchRoutes_lookup (p : string) :
  matchRoutes routeTable p = lookupExact routeTable (canonical p).
Proof.
  rewrite matchRoutes_first, ranked_branches. cbn [find].
  destruct (bindingMatches (mkRoute "/features" Features false false) p) eqn:E1;
    [by_canonical E1|].
  destruct (bindingMatches (mkRoute "/pricing" Pricing false false) p) eqn:E2;
    [by_canonical E2|].
  destruct (bindingMatches (mkRoute "/contact" Contact false false) p) eqn:E3;
    [by_canonical E3|].
  destruct (bindingMatches (mkRoute "/login" Login false false) p) eqn:E4;
    [by_canonical E4|].
  destruct (bindingMatches (mkRoute "/" Home false false) p) eqn:E5;
    [by_canonical E5|].
  unfold lookupExact. rewrite route_table. cbn [find path].
  destruct (String.eqb_spec "/" (canonical p)); [exfalso; no_binding E5|].
  destruct (String.eqb_spec "/features" (canonical p)); [exfalso; no_binding E1|].
  destruct (String.eqb_spec "/pricing" (canonical p)); [exfalso; no_binding E2|].
  destruct (String.eqb_spec "/contact" (canonical p)); [exfalso; no_binding E3|].
  destruct (String.eqb_spec "/login" (canonical p)); [exfalso; no_binding E4|].
  reflexivity.
Qed.

Lemma canonical_orElse (p : string) : canonical (JS.orElse p "/") = canonical p.
Proof. destruct p; reflexivity. Qed.

Lemma renderApp_slots (p : string) : renderApp p = [Some NavBar; content p].
Proof. reflexivity. Qed.

Lemma content_useRoutes (p : string) : content p = useRoutes routeTable p.
Proof. reflexivity. Qed.

Lemma content_lookup (p : string) :
  content p = option_map element (lookupExact routeTable (canonical p)).
Proof.
  rewrite content_useRoutes. unfold useRoutes.
  now rewrite matchRoutes_lookup, canonical_orElse.
Qed.

Lemma lookupExact_some (q : string) (r : RouteObject) :
  lookupExact routeTable q = Some r -> In r routeTable /\ path r = q.
Proof.
  unfold lookupExact. intros H. apply find_some in H.
  destruct H as [Hin He]. apply String.eqb_eq in He. tauto.
Qed.

Lemma lookupExact_none (q : string) :
  lookupExact routeTable q = None <-> ~ In q definedPaths.
Proof.
  unfold lookupExact, definedPaths. split.
  - intros H Hin. apply in_map_iff in Hin. destruct Hin as [r [Hp Hr]].
    pose proof (find_none _ _ H r Hr) as F. cbn beta in F.
    rewrite Hp, String.eqb_refl in F. discriminate.
  - intros N. destruct (find _ routeTable) as [r|] eqn:F; [|reflexivity].
    exfalso. apply N. apply find_some in F. destruct F as [Hin He].
    apply String.eqb_eq in He. subst q. now apply in_map.
Qed.

Lemma page_is_not_shell (p : string) (c : component) :
  content p = Some c -> c <> NavBar.
Proof.
  rewrite content_lookup.
  destruct (lookupExact routeTable (canonical p)) as [r|] eqn:L; [|discriminate].
  apply lookupExact_some in L. destruct L as [Hin _].
  simpl. intros H. injection H as <-.
  rewrite route_table in Hin. simpl in Hin.
  repeat (destruct Hin as [<-|Hin]; [discriminate|]). contradiction.
Qed.

(** ** The five bindings *)

(** C1. At each of the five defined paths, App renders the navigation bar
    in the first slot and the page bound to that path in the content
    region: Home at "/", Features at "/features", Pricing at "/pricing",
    Contact at "/contact", Login at "/login". *)
Theorem defined_paths_render :
  renderApp "/" = [Some NavBar; Some Home]
  /\ renderApp "/features" = [Some NavBar; Some Features]
  /\ renderApp "/pricing" = [Some NavBar; Some Pricing]
  /\ renderApp "/contact" = [Some NavBar; Some Contact]
  /\ renderApp "/login" = [Some NavBar; Some Login]
  /\ Forall (fun r => content (path r) = Some (element r)
                      /\ shell (path r) = Some NavBar) routeTable.
Proof.
  repeat split; try reflexivity.
  rewrite route_table. repeat constructor.
Qed.

(** C2. The route table that [Routes] builds from the children written in
    App.js has exactly five bindings; their paths are the literal strings
    "/", "/features", "/pricing", "/contact", "/login", pairwise distinct. *)
Theorem five_unique_paths :
  List.length routeTable = 5
  /\ definedPaths = ["/"; "/features"; "/pricing"; "/contact"; "/login"]
  /\ NoDup definedPaths.
Proof.
  repeat split.
  repeat constructor; simpl; intuition discriminate.
Qed.

(** Two bindings of the table never match the same pathname. *)
Lemma bindings_exclusive (p : string) (r1 r2 : RouteObject) :
  In r1 routeTable -> In r2 routeTable ->
  bindingMatches r1 p = true -> bindingMatches r2 p = true -> r1 = r2.
Proof.
  intros H1 H2 M1 M2.
  apply (bindingMatches_canonical r1 p H1) in M1.
  apply (bindingMatches_canonical r2 p H2) in M2.
  rewrite M1 in M2. clear M1.
  rewrite route_table in H1, H2. simpl in H1, H2.
  repeat (destruct H1 as [<-|H1]; [
    repeat (destruct H2 as [<-|H2]; [first [reflexivity|discriminate M2]|]);
    contradiction |]).
  contradiction.
Qed.

Lemma pagesShown_content (p : string) :
  pagesShown p = match content p with Some c => [c] | None => [] end.
Proof.
  unfold pagesShown. rewrite renderApp_slots. cbn [visible filter isPage].
  destruct (content p) as [c|] eqn:C; cbn; [|reflexivity].
  apply page_is_not_shell in C.
  unfold isPage, component_eqb. destruct (component_eq_dec c NavBar); [contradiction|].
  reflexivity.
Qed.

Lemma filter_matching (p : string) :
  map element (filter (fun r => bindingMatches r p) routeTable)
  = match content p with Some c => [c] | None => [] end.
Proof.
  rewrite content_lookup.
  destruct (lookupExact routeTable (canonical p)) as [r|] eqn:L.
  - apply lookupExact_some in L. destruct L as [Hin Hp].
    assert (M : forall r', In r' routeTable ->
                bindingMatches r' p = String.eqb (path r') (path r)).
    { intros r' Hr'. rewrite Hp.
      destruct (String.eqb_spec (path r') (canonical p)) as [E|N].
      - apply bindingMatches_canonical; [assumption|congruence].
      - apply not_true_iff_false. intros B.
        apply bindingMatches_canonical in B; [congruence|assumption]. }
    rewrite (filter_ext_in _ (fun r' => String.eqb (path r') (path r)) _ M).
    clear M Hp. rewrite route_table in *. simpl in Hin.
    repeat (destruct Hin as [<-|Hin]; [reflexivity|]). contradiction.
  - assert (M : forall r', In r' routeTable -> bindingMatches r' p = false).
    { intros r' Hr'. apply not_true_iff_false. intros B.
      apply bindingMatches_canonical in B; [|assumption].
      apply lookupExact_none in L. apply L. rewrite B.
      unfold definedPaths. now apply in_map. }
    rewrite (filter_ext_in _ (fun _ => false) _ M).
    rewrite route_table. reflexivity.
Qed.

(** C3, as the spec words it, fails where no binding matches: at
    "/unknown" the content region holds no page at all. *)
Lemma no_page_at_unknown :
  ~ (exists c, pagesShown "/unknown" = [c]).
Proof. intros [c H]. discriminate H. Qed.

(** C3, amended.  For every pathname, at most one binding matches and at
    most one page is in the content region; the pages shown are exactly the
    elements of the matching bindings, so there is one page when a binding
    matches and none otherwise.  No pathname shows two pages. *)
Theorem at_most_one_page (p : string) :
  (forall r1 r2, In r1 routeTable -> In r2 routeTable ->
     bindingMatches r1 p = true -> bindingMatches r2 p = true -> r1 = r2)
  /\ List.length (filter (fun r => bindingMatches r p) routeTable) <= 1
  /\ pagesShown p = map element (filter (fun r => bindingMatches r p) routeTable)
  /\ (pagesShown p = [] \/ exists c, pagesShown p = [c]).
Proof.
  split; [intros r1 r2; apply bindings_exclusive|].
  pose proof (filter_matching p) as F.
  pose proof (pagesShown_content p) as S.
  split; [|split].
  - apply (f_equal (@List.length component)) in F. rewrite length_map in F.
    rewrite F. destruct (content p); simpl; lia.
  - congruence.
  - rewrite S. destruct (content p) as [c|]; [right; now exists c|now left].
Qed.

(** ** Pathnames outside the table *)

(** C5, as the spec words it, fails: "/pricing/" is not one of the five
    defined paths, yet the "/pricing" binding matches it (the compiled
    expression ends in [\/*$]) and Pricing is rendered. *)
Lemma trailing_slash_still_matches :
  ~ In "/pricing/" definedPaths
  /\ bindingMatches (mkRoute "/pricing" Pricing false false) "/pricing/" = true
  /\ content "/pricing/" = Some Pricing.
Proof.
  split; [|split; reflexivity].
  simpl. intuition discriminate.
Qed.

(** The same holds for letter case: the expression carries the [i] flag. *)
Example upper_case_still_matches :
  ~ In "/LOGIN" definedPaths /\ content "/LOGIN" = Some Login.
Proof. split; [simpl; intuition discriminate|reflexivity]. Qed.

(** C5, amended.  For every pathname whose canonical form (percent-decoded
    as the router decodes it, trailing slashes dropped, ASCII letters
    lowered, the empty pathname read as "/") is not one of the five defined
    paths, no binding matches and the content region is empty, there being
    no fallback route, while the navigation bar still renders. *)
Theorem unmatched_renders_shell_only (p : string) :
  ~ In (canonical p) definedPaths ->
  (forall r, In r routeTable -> bindingMatches r p = false)
  /\ matchRoutes routeTable p = None
  /\ content p = None
  /\ shell p = Some NavBar
  /\ visible (renderApp p) = [NavBar].
Proof.
  intros N.
  assert (L : lookupExact routeTable (canonical p) = None)
    by now apply lookupExact_none.
  assert (C : content p = None) by now rewrite content_lookup, L.
  repeat split.
  - intros r Hr. apply not_true_iff_false. intros B.
    apply bindingMatches_canonical in B; [|assumption].
    apply N. rewrite B. unfold definedPaths. now apply in_map.
  - now rewrite matchRoutes_lookup.
  - exact C.
  - rewrite renderApp_slots, C. reflexivity.
Qed.

Lemma unmatched_renders_shell_only_at_unknown :
  ~ In (canonical "/unknown") definedPaths
  /\ (forall r, In r routeTable -> bindingMatches r "/unknown" = false)
  /\ matchRoutes routeTable "/unknown" = None
  /\ content "/unknown" = None
  /\ shell "/unknown" = Some NavBar
  /\ visible (renderApp "/unknown") = [NavBar].
Proof.
  assert (N : ~ In (canonical "/unknown") definedPaths)
    by (simpl; intuition discriminate).
  split; [exact N|].
  apply (unmatched_renders_shell_only "/unknown"). exact N.
Defined.

(** The converse: a pathname whose canonical form is a defined path shows
    the page bound to it. *)
Lemma matched_renders_page (p : string) (r : RouteObject) :
  In r routeTable -> canonical p = path r -> content p = Some (element r).
Proof.
  intros Hr E. rewrite content_lookup, E.
  rewrite route_table in Hr. simpl in Hr.
  repeat (destruct Hr as [<-|Hr]; [reflexivity|]). contradiction.
Qed.

(** ** Distinct pages *)

(** C8. The five paths are bound to five pairwise distinct page
    components: no component is bound to two paths, and two defined paths
    that render the same page are the same path. *)
Theorem pages_injective :
  map element routeTable = [Home; Features; Pricing; Contact; Login]
  /\ NoDup (map element routeTable)
  /\ (forall r1 r2, In r1 routeTable -> In r2 routeTable ->
        element r1 = element r2 -> path r1 = path r2)
  /\ (forall p1 p2, In p1 definedPaths -> In p2 definedPaths ->
        content p1 = content p2 -> p1 = p2).
Proof.
  split; [reflexivity|]. split.
  { repeat constructor; simpl; intuition discriminate. }
  split.
  - intros r1 r2 H1 H2. rewrite route_table in H1, H2. simpl in H1, H2.
    repeat (destruct H1 as [<-|H1]; [
      repeat (destruct H2 as [<-|H2]; [first [reflexivity|discriminate]|]);
      contradiction |]).
    contradiction.
  - intros p1 p2 H1 H2. simpl in H1, H2.
    repeat (destruct H1 as [<-|H1]; [
      repeat (destruct H2 as [<-|H2]; [first [reflexivity|discriminate]|]);
      contradiction |]).
    contradiction.
Qed.

(** ** The root binding *)

(** The root binding matches nothing but runs of slashes: it is no prefix
    match. *)
Lemma root_matches_only_slashes (pathname : string) :
  matchPath "/" false pathname = true -> JS.allSlashes pathname = true.
Proof.
  unfold matchPath. cbn. intros H.
  change (regexpTest true "/" pathname = true) in H.
  apply regexpTest_root in H. now apply allSlashes_drop.
Qed.



(** ** Reconciliation *)

Lemma reconcileSlot_type (cur : option Fiber) (n : option component) (fresh : nat) :
  option_map fiberType (fst (fst (reconcileSlot cur n fresh))) = n.
Proof.
  destruct cur as [old|], n as [c|]; simpl; try reflexivity.
  unfold component_eqb.
  destruct (component_eq_dec (fiberType old) c) as [E|]; simpl; [now rewrite E|reflexivity].
Qed.

(** After a commit every slot holds a fiber of the type just rendered. *)
Lemma reconcileChildren_types (next : list (option component)) :
  forall cur fresh,
    map (option_map fiberType) (fst (fst (reconcileChildren cur next fresh))) = next.
Proof.
  induction next as [|n next IH]; intros cur fresh; simpl; [reflexivity|].
  pose proof (reconcileSlot_type (hd None cur) n fresh) as S.
  destruct (reconcileSlot (hd None cur) n fresh) as [[slot effs] fresh1].
  specialize (IH (tl cur) fresh1).
  destruct (reconcileChildren (tl cur) next fresh1) as [[slots effs'] fresh2].
  simpl in *. now rewrite S, IH.
Qed.

Lemma screen_commit (cur : list (option Fiber)) (fresh : nat) (p : string) :
  screen (fst (commit cur fresh p)) = renderApp p.
Proof.
  unfold screen, commit.
  pose proof (reconcileChildren_types (renderApp p) cur fresh) as T.
  destruct (reconcileChildren cur (renderApp p) fresh) as [[slots effs] fresh'].
  exact T.
Qed.


Lemma location_commit (cur : list (option Fiber)) (fresh : nat) (p : string) :
  location (fst (commit cur fresh p)) = p.
Proof.
  unfold commit.
  destruct (reconcileChildren cur (renderApp p) fresh) as [[slots effs] fresh'].
  reflexivity.
Qed.

Lemma reachable_is_commit (r : Root) :
  reachable r -> exists cur fresh p, r = fst (commit cur fresh p).
Proof.
  intros [p|r' p _].
  - now exists [], 0, p.
  - now exists (fibers r'), (nextId r'), p.
Qed.

Lemma run_reachable (start : string) (history : list string) :
  reachable (run start history).
Proof.
  unfold run. generalize (reach_mount start).
  generalize (fst (mount start)) as r.
  induction history as [|p history IH]; intros r R; simpl; [exact R|].
  apply IH. now constructor.
Qed.

(** In every reachable state the first slot holds a NavBar fiber and the
    second slot holds no NavBar fiber. *)
Lemma reachable_slots (r : Root) :
  reachable r ->
  exists f o, fibers r = [Some f; o] /\ fiberType f = NavBar
              /\ option_map fiberType o = content (location r).
Proof.
  intros R. destruct (reachable_is_commit r R) as [cur [fresh [p ->]]].
  pose proof (screen_commit cur fresh p) as S.
  rewrite location_commit.
  rewrite renderApp_slots in S. unfold screen in S.
  destruct (fibers (fst (commit cur fresh p))) as [|[f|] [|o [|x l]]];
    simpl in S; try discriminate.
  injection S as Hf Ho. exists f, o. repeat split; assumption.
Qed.

(** ** The persistent shell *)

(** C4. In every state the application can reach, a URL change to any
    pathname (so in particular between any two defined paths) keeps the
    fiber of the navigation bar: the first slot holds the same NavBar fiber
    before and after, no effect of the transition places or deletes a
    NavBar fiber, and App renders the same [<NavBar />] element at both
    locations. *)
Theorem shell_persists (r : Root) (p : string) :
  reachable r ->
  exists f,
    shellFiber r = Some f
    /\ fiberType f = NavBar
    /\ shellFiber (fst (navigate r p)) = Some f
    /\ forallb (fun e => negb (touches NavBar e)) (snd (navigate r p)) = true
    /\ shell (location r) = shell p
    /\ shell p = Some NavBar.
Proof.
  intros R. destruct (reachable_slots r R) as [f [o [F [T O]]]].
  exists f. unfold shellFiber, navigate, commit.
  rewrite F, renderApp_slots. cbn [reconcileChildren hd tl nth].
  assert (S0 : forall n, reconcileSlot (Some f) (Some NavBar) n = (Some f, [], n)).
  { intros n. unfold reconcileSlot, component_eqb. rewrite T.
    destruct (component_eq_dec NavBar NavBar); [reflexivity|contradiction]. }
  rewrite S0.
  assert (S1 : forallb (fun e => negb (touches NavBar e))
                 (snd (fst (reconcileSlot o (content p) (nextId r)))) = true).
  { destruct (content p) as [c|] eqn:C.
    - pose proof (page_is_not_shell p c C) as Nc.
      destruct o as [g|]; simpl.
      + simpl in O. symmetry in O. apply page_is_not_shell in O.
        unfold component_eqb at 1.
        destruct (component_eq_dec (fiberType g) c); simpl; [reflexivity|].
        unfold component_eqb.
        destruct (component_eq_dec (fiberType g) NavBar); [contradiction|].
        destruct (component_eq_dec c NavBar); [contradiction|]. reflexivity.
      + unfold component_eqb.
        destruct (component_eq_dec c NavBar); [contradiction|]. reflexivity.
    - destruct o as [g|]; simpl; [|reflexivity].
      simpl in O. symmetry in O. apply page_is_not_shell in O.
      unfold component_eqb.
      destruct (component_eq_dec (fiberType g) NavBar); [contradiction|]. reflexivity. }
  destruct (reconcileSlot o (content p) (nextId r)) as [[slot effs] fresh1].
  simpl in S1. simpl. rewrite app_nil_r.
  repeat split; assumption.
Qed.

Lemma shell_persists_home_to_pricing :
  reachable (fst (mount "/"))
  /\ exists f,
       shellFiber (fst (mount "/")) = Some f
       /\ fiberType f = NavBar
       /\ shellFiber (fst (navigate (fst (mount "/")) "/pricing")) = Some f
       /\ forallb (fun e => negb (touches NavBar e))
            (snd (navigate (fst (mount "/")) "/pricing")) = true
       /\ shell (location (fst (mount "/"))) = shell "/pricing"
       /\ shell "/pricing" = Some NavBar.
Proof.
  split; [apply reach_mount|].
  apply (shell_persists (fst (mount "/")) "/pricing"). apply reach_mount.
Defined.

(** The scenario of the spec: load "/", then go to "/pricing".  Home is
    deleted, Pricing is placed, the NavBar fiber (id 0) stays. *)
Example home_to_pricing :
  mount "/" =
    (mkRoot "/" [Some (mkFiber NavBar 0); Some (mkFiber Home 1)] 2 routeTable,
     [Placement (mkFiber NavBar 0); Placement (mkFiber Home 1)])
  /\ navigate (fst (mount "/")) "/pricing" =
    (mkRoot "/pricing" [Some (mkFiber NavBar 0); Some (mkFiber Pricing 2)] 3 routeTable,
     [Deletion (mkFiber Home 1); Placement (mkFiber Pricing 2)]).
Proof. split; reflexivity. Qed.

(** ** The table over a session *)







(** ** Determinism *)

(** C7. Dispatch is a function of the current pathname alone: after any two
    histories, a URL change to the same pathname puts the same page (or the
    same absence of a page) in the content region, namely the element of
    the binding [matchRoutes] selects for that pathname.  [matchRoutes] is
    total: [None] is the absence of a match, not a failure. *)
Theorem dispatch_deterministic
    (start1 start2 : string) (history1 history2 : list string) (p : string) :
  option_map fiberType (contentFiber (fst (navigate (run start1 history1) p)))
  = option_map fiberType (contentFiber (fst (navigate (run start2 history2) p)))
  /\ option_map fiberType (contentFiber (fst (navigate (run start1 history1) p)))
     = option_map element (matchRoutes routeTable p)
  /\ content p = option_map element (matchRoutes routeTable p).
Proof.
  assert (C : content p = option_map element (matchRoutes routeTable p)).
  { rewrite content_lookup, matchRoutes_lookup. reflexivity. }
  assert (G : forall r, option_map fiberType (contentFiber (fst (navigate r p)))
                        = content p).
  { intros r. unfold contentFiber, navigate.
    pose proof (screen_commit (fibers r) (nextId r) p) as S.
    unfold screen in S. rewrite renderApp_slots in S.
    destruct (fibers (fst (commit (fibers r) (nextId r) p))) as [|a [|b l]];
      simpl in S; try discriminate.
    injection S as _ Hb _. exact Hb. }
  rewrite !G. repeat split; assumption.
Qed.

(** C10. App takes no argument and keeps no state, so what is on screen
    depends on the current pathname only: the first render at a pathname
    and a URL change to it after any two histories show the same output,
    the navigation bar followed by the page selected for that pathname. *)
Theorem output_determined_by_url
    (start1 start2 : string) (history1 history2 : list string) (p : string) :
  screen (fst (navigate (run start1 history1) p))
  = screen (fst (navigate (run start2 history2) p))
  /\ screen (fst (navigate (run start1 history1) p)) = screen (fst (mount p))
  /\ screen (fst (mount p)) = [Some NavBar; content p]
  /\ renderApp p = [Some NavBar; content p].
Proof.
  unfold navigate, mount. rewrite !screen_commit.
  repeat split.
Qed.


(** * Further properties of the dispatcher *)

(** ** Pathnames that render alike *)

Lemma drop_app_slashes (p t : string) :
  JS.allSlashes t = true ->
  JS.dropTrailingSlashes (p ++ t) = JS.dropTrailingSlashes p.
Proof.
  intros A. induction p as [|c p IH]; simpl.
  - now apply allSlashes_drop.
  - now rewrite IH.
Qed.

Lemma drop_lower (s : string) :
  JS.dropTrailingSlashes (JS.lowerString s)
  = JS.lowerString (JS.dropTrailingSlashes s).
Proof.
  induction s as [|c s IH]; simpl; [reflexivity|].
  rewrite IH, lower_slash_eqb.
  destruct (JS.dropTrailingSlashes s); simpl;
    destruct (Ascii.eqb c JS.slash); reflexivity.
Qed.

Lemma canonical_of_lower (p q : string) :
  JS.lowerString p = JS.lowerString q -> canonical p = canonical q.
Proof.
  intros E. unfold canonical, canonicalDecoded. rewrite <- !drop_lower.
  assert (E' : JS.lowerString (JS.orElse p "/") = JS.lowerString (JS.orElse q "/")).
  { destruct p, q; try discriminate E; [reflexivity|exact E]. }
  rewrite <- (decodePath_lower (JS.orElse p "/")),
          <- (decodePath_lower (JS.orElse q "/")).
  now rewrite E'.
Qed.

Lemma canonical_app_slashes (p t : string) :
  JS.allSlashes t = true -> canonical (p ++ t) = canonical p.
Proof.
  intros A. unfold canonical. destruct p as [|c p].
  - destruct t as [|d t]; [reflexivity|].
    cbn [append]. change (JS.orElse (String d t) "/") with (String d t).
    unfold decodePath at 1. rewrite (decodePathTry_slashes _ A).
    unfold canonicalDecoded.
    apply allSlashes_drop in A. rewrite A. reflexivity.
  - change (JS.orElse (String c p ++ t) "/") with (String c p ++ t).
    change (JS.orElse (String c p) "/") with (String c p).
    rewrite (decodePath_app_slashes _ _ A).
    unfold canonicalDecoded. now rewrite drop_app_slashes.
Qed.

Lemma renderApp_canonical (p q : string) :
  canonical p = canonical q -> renderApp p = renderApp q.
Proof.
  intros E. now rewrite !renderApp_slots, !content_lookup, E.
Qed.

(** X1. Trailing slashes never change what is rendered: a pathname followed
    by any run of slashes shows the same output as the pathname itself. *)
Theorem trailing_slashes_ignored (p t : string) :
  JS.allSlashes t = true -> renderApp (p ++ t) = renderApp p.
Proof.
  intros A. apply renderApp_canonical. now apply canonical_app_slashes.
Qed.

Lemma trailing_slashes_ignored_contact :
  JS.allSlashes "///" = true /\ renderApp ("/contact" ++ "///") = renderApp "/contact".
Proof.
  split; [reflexivity|].
  apply (trailing_slashes_ignored "/contact" "///"). reflexivity.
Defined.

(** X2. Letter case never changes what is rendered: two pathnames that are
    equal once their ASCII letters are lowered show the same output. *)
Theorem letter_case_ignored (p q : string) :
  JS.lowerString p = JS.lowerString q -> renderApp p = renderApp q.
Proof.
  intros E. apply renderApp_canonical. now apply canonical_of_lower.
Qed.

Lemma letter_case_ignored_pricing :
  JS.lowerString "/Pricing" = JS.lowerString "/pRICING"
  /\ renderApp "/Pricing" = renderApp "/pRICING".
Proof.
  split; [reflexivity|].
  apply (letter_case_ignored "/Pricing" "/pRICING"). reflexivity.
Defined.

(** X3. What the content region holds is decided by the canonical form of
    the pathname (percent-decoded, trailing slashes dropped, ASCII letters
    lowered), in both directions: the page of a binding is shown
    exactly when the canonical pathname is that binding's path, and the
    region is empty exactly when the canonical pathname is no defined
    path. *)
Theorem content_characterised (p : string) :
  (forall r, In r routeTable ->
     (content p = Some (element r) <-> canonical p = path r))
  /\ (content p = None <-> ~ In (canonical p) definedPaths).
Proof.
  split.
  - intros r Hr. split.
    + rewrite content_lookup.
      destruct (lookupExact routeTable (canonical p)) as [r'|] eqn:L;
        [|discriminate].
      apply lookupExact_some in L. destruct L as [Hr' <-].
      simpl. intros H. injection H as H.
      rewrite route_table in Hr, Hr'. simpl in Hr, Hr'.
      repeat (destruct Hr as [<-|Hr]; [
        repeat (destruct Hr' as [<-|Hr']; [first [reflexivity|discriminate H]|]);
        contradiction |]).
      contradiction.
    + now apply matched_renders_page.
  - rewrite content_lookup, <- lookupExact_none.
    destruct (lookupExact routeTable (canonical p)); simpl; split;
      congruence.
Qed.

(** ** Sub-paths *)

Lemma drop_app_nonslash (d t : string) :
  JS.allSlashes t = false ->
  JS.dropTrailingSlashes (d ++ t) = d ++ JS.dropTrailingSlashes t.
Proof.
  intros A.
  assert (N : JS.dropTrailingSlashes t <> EmptyString).
  { intros E. apply allSlashes_drop in E. congruence. }
  induction d as [|c d IH]; simpl; [reflexivity|].
  rewrite IH.
  destruct (d ++ JS.dropTrailingSlashes t) as [|x y] eqn:E.
  - destruct d; simpl in E; [contradiction|discriminate].
  - simpl. now rewrite andb_false_r.
Qed.

(** Below a defined path no decoded pathname is canonical for a binding. *)
Lemma sub_path_not_defined (d t : string) :
  In d definedPaths -> JS.allSlashes t = false ->
  ~ In (canonicalDecoded (d ++ "/" ++ t)) definedPaths.
Proof.
  intros Hd A.
  assert (Ld : JS.lowerString d = d).
  { simpl in Hd. repeat (destruct Hd as [<-|Hd]; [reflexivity|]). contradiction. }
  assert (T : JS.dropTrailingSlashes t <> EmptyString).
  { intros E. apply allSlashes_drop in E. congruence. }
  unfold canonicalDecoded.
  rewrite drop_app_nonslash by (simpl; exact A).
  rewrite lower_app, Ld.
  destruct (drop_cons "/" t) as [Z|[Z _]].
  { simpl in Z. destruct (JS.dropTrailingSlashes t); [contradiction|discriminate]. }
  cbn [append]. rewrite Z. cbn [JS.lowerString].
  destruct (JS.lowerString (JS.dropTrailingSlashes t)) as [|x y] eqn:E.
  { apply lower_empty in E. contradiction. }
  simpl in Hd.
  repeat (destruct Hd as [<-|Hd]; [simpl; intuition discriminate|]).
  contradiction.
Qed.

(** X4. No binding matches below its path: a defined path followed by a
    slash and by anything that is not only slashes (as "/features/x", or
    "//login" below the root) leaves the content region empty. *)
Theorem sub_paths_render_nothing (d t : string) :
  In d definedPaths -> JS.allSlashes t = false ->
  content (d ++ "/" ++ t) = None.
Proof.
  intros Hd A.
  rewrite content_lookup.
  assert (N : ~ In (canonical (d ++ "/" ++ t)) definedPaths); [|
    apply lookupExact_none in N; now rewrite N].
  assert (Dd : decodePathTry d = Some d).
  { simpl in Hd. repeat (destruct Hd as [<-|Hd]; [reflexivity|]). contradiction. }
  assert (Nd : JS.orElse (d ++ "/" ++ t) "/" = d ++ "/" ++ t).
  { destruct d; reflexivity. }
  unfold canonical. rewrite Nd.
  unfold decodePath.
  change (d ++ "/" ++ t) with (d ++ String JS.slash t).
  rewrite decodePathTry_slash, Dd.
  destruct (decodePathTry t) as [t'|] eqn:Dt.
  - apply decodePathTry_allSlashes in Dt.
    apply (sub_path_not_defined d t' Hd). congruence.
  - now apply (sub_path_not_defined d t Hd).
Qed.

Lemma sub_paths_render_nothing_features_x :
  In "/features" definedPaths /\ JS.allSlashes "x" = false
  /\ content ("/features" ++ "/" ++ "x") = None.
Proof.
  assert (Hd : In "/features" definedPaths) by (simpl; tauto).
  split; [exact Hd|]. split; [reflexivity|].
  apply (sub_paths_render_nothing "/features" "x" Hd). reflexivity.
Defined.

(** ** What a URL change does to the content region *)

Lemma reconcile_shell (f : Fiber) (n : nat) :
  fiberType f = NavBar -> reconcileSlot (Some f) (Some NavBar) n = (Some f, [], n).
Proof.
  intros T. unfold reconcileSlot, component_eqb. rewrite T.
  destruct (component_eq_dec NavBar NavBar); [reflexivity|contradiction].
Qed.

(** A URL change re-renders both slots; the first is always kept, so the
    transition is the reconciliation of the content slot. *)
Lemma navigate_unfold (r : Root) (p : string) (f : Fiber) (o : option Fiber) :
  fibers r = [Some f; o] -> fiberType f = NavBar ->
  navigate r p =
  (mkRoot p [Some f; fst (fst (reconcileSlot o (content p) (nextId r)))]
          (snd (reconcileSlot o (content p) (nextId r))) routeTable,
   snd (fst (reconcileSlot o (content p) (nextId r)))).
Proof.
  intros F T. unfold navigate, commit.
  rewrite F, renderApp_slots. cbn [reconcileChildren hd tl].
  rewrite (reconcile_shell f _ T).
  destruct (reconcileSlot o (content p) (nextId r)) as [[slot effs] n'].
  simpl. now rewrite app_nil_r.
Qed.

Lemma mount_unfold (p : string) :
  mount p =
  (mkRoot p [Some (mkFiber NavBar 0);
             fst (fst (reconcileSlot None (content p) 1))]
          (snd (reconcileSlot None (content p) 1)) routeTable,
   Placement (mkFiber NavBar 0) :: snd (fst (reconcileSlot None (content p) 1))).
Proof.
  unfold mount, commit. rewrite renderApp_slots.
  cbn [reconcileChildren hd tl].
  change (reconcileSlot None (Some NavBar) 0)
    with (Some (mkFiber NavBar 0), [Placement (mkFiber NavBar 0)], 1).
  cbv iota beta.
  destruct (reconcileSlot None (content p) 1) as [[slot effs] n'].
  simpl. now rewrite app_nil_r.
Qed.

(** X5. A URL change that selects the same page as before (the same path
    with a trailing slash or in another letter case, or a second unmatched
    path) mounts and unmounts nothing: no effect is emitted, both fibers
    and the id counter are the ones from before. *)
Theorem same_page_navigation_is_silent (r : Root) (p : string) :
  reachable r -> content p = content (location r) ->
  snd (navigate r p) = []
  /\ fibers (fst (navigate r p)) = fibers r
  /\ nextId (fst (navigate r p)) = nextId r
  /\ location (fst (navigate r p)) = p.
Proof.
  intros R E. destruct (reachable_slots r R) as [f [o [F [T O]]]].
  rewrite (navigate_unfold r p f o F T), F, E, <- O.
  destruct o as [g|]; simpl.
  - unfold component_eqb.
    destruct (component_eq_dec (fiberType g) (fiberType g)); [|contradiction].
    simpl. repeat split.
  - repeat split.
Qed.

Lemma same_page_navigation_is_silent_slash :
  reachable (fst (mount "/pricing"))
  /\ content "/pricing/" = content (location (fst (mount "/pricing")))
  /\ snd (navigate (fst (mount "/pricing")) "/pricing/") = []
  /\ fibers (fst (navigate (fst (mount "/pricing")) "/pricing/"))
     = fibers (fst (mount "/pricing"))
  /\ nextId (fst (navigate (fst (mount "/pricing")) "/pricing/"))
     = nextId (fst (mount "/pricing"))
  /\ location (fst (navigate (fst (mount "/pricing")) "/pricing/")) = "/pricing/".
Proof.
  split; [apply reach_mount|]. split; [reflexivity|].
  apply (same_page_navigation_is_silent (fst (mount "/pricing")) "/pricing/");
    [apply reach_mount|reflexivity].
Defined.

(** X6. A URL change from a pathname that shows page [a] to one that shows
    a different page [b] deletes the fiber of [a] and places one new fiber
    of [b] under the next unused id; nothing else happens, and the first
    slot is as before. *)
Theorem page_change_swaps_fiber (r : Root) (p : string) (a b : component) :
  reachable r -> content (location r) = Some a -> content p = Some b -> a <> b ->
  exists g,
    contentFiber r = Some g /\ fiberType g = a
    /\ navigate r p =
       (mkRoot p [shellFiber r; Some (mkFiber b (nextId r))] (S (nextId r)) routeTable,
        [Deletion g; Placement (mkFiber b (nextId r))]).
Proof.
  intros R A B N. destruct (reachable_slots r R) as [f [o [F [T O]]]].
  rewrite A in O. destruct o as [g|]; [|discriminate].
  simpl in O. injection O as O.
  exists g. unfold contentFiber, shellFiber.
  rewrite (navigate_unfold r p f (Some g) F T), F, B. simpl.
  unfold component_eqb.
  destruct (component_eq_dec (fiberType g) b); [congruence|].
  repeat split. exact O.
Qed.

Lemma page_change_swaps_fiber_home_to_login :
  reachable (fst (mount "/"))
  /\ content (location (fst (mount "/"))) = Some Home
  /\ content "/login" = Some Login
  /\ Home <> Login
  /\ exists g,
       contentFiber (fst (mount "/")) = Some g /\ fiberType g = Home
       /\ navigate (fst (mount "/")) "/login" =
          (mkRoot "/login"
             [shellFiber (fst (mount "/"));
              Some (mkFiber Login (nextId (fst (mount "/"))))]
             (S (nextId (fst (mount "/")))) routeTable,
           [Deletion g; Placement (mkFiber Login (nextId (fst (mount "/"))))]).
Proof.
  split; [apply reach_mount|]. split; [reflexivity|]. split; [reflexivity|].
  split; [discriminate|].
  apply (page_change_swaps_fiber (fst (mount "/")) "/login" Home Login);
    [apply reach_mount|reflexivity|reflexivity|discriminate].
Defined.

(** X7. A URL change to a pathname no binding matches unmounts the page
    that was shown, if there was one, and places nothing: the content slot
    is left empty, the first slot and the id counter are untouched. *)
Theorem leaving_the_table_unmounts_page (r : Root) (p : string) :
  reachable r -> content p = None ->
  navigate r p =
  (mkRoot p [shellFiber r; None] (nextId r) routeTable,
   map Deletion (mountedFibers [contentFiber r])).
Proof.
  intros R C. destruct (reachable_slots r R) as [f [o [F [T _]]]].
  unfold contentFiber, shellFiber.
  rewrite (navigate_unfold r p f o F T), F, C.
  destruct o as [g|]; reflexivity.
Qed.

Lemma leaving_the_table_unmounts_page_contact :
  reachable (fst (mount "/contact"))
  /\ content "/nowhere" = None
  /\ navigate (fst (mount "/contact")) "/nowhere" =
     (mkRoot "/nowhere" [shellFiber (fst (mount "/contact")); None]
             (nextId (fst (mount "/contact"))) routeTable,
      map Deletion (mountedFibers [contentFiber (fst (mount "/contact"))])).
Proof.
  split; [apply reach_mount|]. split; [reflexivity|].
  apply (leaving_the_table_unmounts_page (fst (mount "/contact")) "/nowhere");
    [apply reach_mount|reflexivity].
Defined.

(** ** Fiber identities *)

Lemma reachable_ids (r : Root) :
  reachable r ->
  NoDup (map fiberId (mountedFibers (fibers r)))
  /\ Forall (fun f => fiberId f < nextId r) (mountedFibers (fibers r)).
Proof.
  induction 1 as [p|r p R IH].
  - rewrite mount_unfold. cbn [fst fibers nextId].
    destruct (content p) as [c|]; simpl; split;
      repeat constructor; simpl; intuition lia.
  - destruct (reachable_slots r R) as [f [o [F [T _]]]].
    rewrite (navigate_unfold r p f o F T). cbn [fst fibers nextId].
    rewrite F in IH. destruct IH as [D B].
    destruct o as [g|], (content p) as [c|]; simpl in *.
    + destruct (component_eqb (fiberType g) c); simpl.
      * split; assumption.
      * inversion B as [|x l Bf Bl]; subst.
        split; repeat constructor; simpl; intuition lia.
    + inversion B as [|x l Bf Bl]; subst.
      split; repeat constructor; simpl; intuition lia.
    + inversion B as [|x l Bf Bl]; subst.
      split; repeat constructor; simpl; intuition lia.
    + split; assumption.
Qed.

(** Fiber identities are never reused: in every reachable state the
    mounted fibers carry pairwise distinct ids, all below the counter; a
    fiber placed by a URL change gets the counter's value as its id, and
    the counter never decreases. *)
Theorem fiber_ids_never_reused (r : Root) (p : string) :
  reachable r ->
  NoDup (map fiberId (mountedFibers (fibers r)))
  /\ Forall (fun f => fiberId f < nextId r) (mountedFibers (fibers r))
  /\ (forall g, In (Placement g) (snd (navigate r p)) -> fiberId g = nextId r)
  /\ nextId r <= nextId (fst (navigate r p)).
Proof.
  intros R. destruct (reachable_ids r R) as [D B].
  split; [exact D|]. split; [exact B|].
  destruct (reachable_slots r R) as [f [o [F [T _]]]].
  rewrite (navigate_unfold r p f o F T). cbn [fst snd nextId].
  destruct o as [g|], (content p) as [c|]; simpl;
    try destruct (component_eqb (fiberType g) c); simpl; split;
    try lia; intros h H; simpl in H;
    repeat (destruct H as [H|H]; try discriminate H; try contradiction);
    injection H as <-; reflexivity.
Qed.

Lemma fiber_ids_never_reused_features :
  reachable (fst (mount "/features"))
  /\ NoDup (map fiberId (mountedFibers (fibers (fst (mount "/features")))))
  /\ Forall (fun f => fiberId f < nextId (fst (mount "/features")))
       (mountedFibers (fibers (fst (mount "/features"))))
  /\ (forall g, In (Placement g) (snd (navigate (fst (mount "/features")) "/contact")) ->
        fiberId g = nextId (fst (mount "/features")))
  /\ nextId (fst (mount "/features"))
     <= nextId (fst (navigate (fst (mount "/features")) "/contact")).
Proof.
  split; [apply reach_mount|].
  apply (fiber_ids_never_reused (fst (mount "/features")) "/contact").
  apply reach_mount.
Defined.

(** ** The order of the bindings *)

Section Ranking.

Lemma flattenFrom_route (routes : list RouteObject) :
  forall i, map route (flattenFrom i routes) = routes.
Proof.
  induction routes as [|r routes IH]; intros i; simpl; [reflexivity|].
  now rewrite IH.
Qed.

Lemma flattenFrom_relative (routes : list RouteObject) :
  forall i, Forall (fun b => relativePath b = path (route b)) (flattenFrom i routes).
Proof.
  induction routes as [|r routes IH]; intros i; simpl; constructor.
  - reflexivity.
  - apply IH.
Qed.

Lemma insertBranch_perm (b : RouteBranch) (l : list RouteBranch) :
  Permutation (insertBranch b l) (b :: l).
Proof.
  induction l as [|x l IH]; simpl; [apply Permutation_refl|].
  destruct (ranksBefore b x); [apply Permutation_refl|].
  apply perm_trans with (x :: b :: l); [now apply perm_skip|apply perm_swap].
Qed.

(** Ranking reorders the branches and loses none. *)
Lemma rankRouteBranches_perm (l : list RouteBranch) :
  Permutation (rankRouteBranches l) l.
Proof.
  induction l as [|b l IH]; simpl; [apply Permutation_refl|].
  apply perm_trans with (b :: rankRouteBranches l);
    [apply insertBranch_perm|now apply perm_skip].
Qed.

Lemma find_through_map {A B : Type} (f : A -> B) (g : B -> bool) (l : list A) :
  option_map f (find (fun a => g (f a)) l) = find g (map f l).
Proof.
  induction l as [|a l IH]; simpl; [reflexivity|].
  destruct (g (f a)); [reflexivity|exact IH].
Qed.

Lemma find_agree {A : Type} (f g : A -> bool) (l : list A) :
  Forall (fun a => f a = g a) l -> find f l = find g l.
Proof.
  induction 1 as [|a l E _ IH]; simpl; [reflexivity|].
  rewrite E. destruct (g a); [reflexivity|exact IH].
Qed.

(** When at most one element of a list satisfies the test, [find] gives the
    same answer on every reordering of the list. *)
Lemma find_perm_exclusive {A : Type} (g : A -> bool) (l m : list A) :
  Permutation l m ->
  (forall x y, In x m -> In y m -> g x = true -> g y = true -> x = y) ->
  find g l = find g m.
Proof.
  intros P X.
  destruct (find g l) as [x|] eqn:Fl, (find g m) as [y|] eqn:Fm.
  - apply find_some in Fl, Fm. destruct Fl as [Il Gx], Fm as [Im Gy].
    f_equal. apply X; try assumption. now apply (Permutation_in _ P).
  - apply find_some in Fl. destruct Fl as [Il Gx].
    pose proof (find_none _ _ Fm x (Permutation_in _ P Il)) as N. congruence.
  - apply find_some in Fm. destruct Fm as [Im Gy].
    pose proof (find_none _ _ Fl y (Permutation_in _ (Permutation_sym P) Im)) as N.
    congruence.
  - reflexivity.
Qed.

(** For a table whose bindings exclude one another at a pathname, the
    ranked search of [matchRoutes] is a plain search of the table. *)
Lemma matchRoutes_exclusive (routes : list RouteObject) (q : string) :
  (forall r1 r2, In r1 routes -> In r2 routes ->
     bindingMatches r1 q = true -> bindingMatches r2 q = true -> r1 = r2) ->
  matchRoutes routes q = find (fun r => bindingMatches r q) routes.
Proof.
  intros X. unfold matchRoutes.
  pose proof (rankRouteBranches_perm (flattenRoutes routes)) as P.
  assert (E : Forall (fun b => matchRouteBranch b (decodePath (JS.orElse q "/"))
                               = bindingMatches (route b) q)
                (rankRouteBranches (flattenRoutes routes))).
  { apply Forall_forall. intros b Hb.
    apply (Permutation_in _ P) in Hb.
    pose proof (flattenFrom_relative routes 0) as Rl.
    rewrite Forall_forall in Rl. specialize (Rl b Hb).
    unfold matchRouteBranch, bindingMatches. now rewrite Rl. }
  rewrite (find_agree _ _ _ E).
  rewrite (find_through_map route (fun r => bindingMatches r q)).
  apply find_perm_exclusive.
  - apply (Permutation_map route) in P.
    unfold flattenRoutes in P. now rewrite flattenFrom_route in P.
  - exact X.
Qed.

End Ranking.

Lemma bindingMatches_orElse (r : RouteObject) (p : string) :
  bindingMatches r (JS.orElse p "/") = bindingMatches r p.
Proof.
  unfold bindingMatches. rewrite orElse_idem; [reflexivity|discriminate].
Qed.

(** X8. The order in which the five [<Route />] elements are written does
    not matter: [Routes] over any reordering of the children of App.js
    renders, at every pathname, what App renders in its content region. *)
Theorem route_order_is_irrelevant (children' : list RouteProps) (p : string) :
  Permutation children' routeChildren ->
  renderElement p (Routes children') = content p.
Proof.
  intros P. cbn [renderElement renderRoutes fst].
  assert (Pr : Permutation (createRoutesFromChildren children') routeTable).
  { change routeTable with (createRoutesFromChildren routeChildren).
    unfold createRoutesFromChildren. now apply Permutation_map. }
  assert (X : forall routes, Permutation routes routeTable ->
              forall r1 r2, In r1 routes -> In r2 routes ->
                bindingMatches r1 (JS.orElse p "/") = true ->
                bindingMatches r2 (JS.orElse p "/") = true -> r1 = r2).
  { intros routes Q r1 r2 H1 H2. rewrite !bindingMatches_orElse.
    apply bindings_exclusive; now apply (Permutation_in _ Q). }
  rewrite content_useRoutes. unfold useRoutes.
  rewrite (matchRoutes_exclusive _ _ (X _ Pr)).
  rewrite (matchRoutes_exclusive _ _ (X _ (Permutation_refl _))).
  f_equal. apply find_perm_exclusive; [exact Pr|].
  apply (X _ (Permutation_refl _)).
Qed.

Lemma route_order_is_irrelevant_reversed :
  Permutation (rev routeChildren) routeChildren
  /\ renderElement "/login" (Routes (rev routeChildren)) = content "/login".
Proof.
  assert (P : Permutation (rev routeChildren) routeChildren)
    by (apply Permutation_sym, Permutation_rev).
  split; [exact P|].
  apply (route_order_is_irrelevant (rev routeChildren) "/login" P).
Defined.
